(** * Circular Binary Segmentation (cbs.go): model and verified properties

    The development follows [src/cbs.go] function by function:
    [cbsStat], [cbsInner], [rsegment] and [CBS].

    - Go [int] values are modelled by [Z]; every integer the program
      computes lies between [0] and [len(x)] (proved below), so no
      machine wrap-around can occur.
    - [float64] arithmetic is an interface ([Float64Ops]): the results
      on the segmenter and on the statistic hold for every interpretation
      of the operations.  [F64Ops] is IEEE binary64 itself (Rocq's
      primitive floats), on which the results are evaluated; [QOps] is
      exact rational arithmetic, for the results that are about it.
    - [*rand.Rand] is an interface ([RandSource]) for the generator that
      [math/rand] supplies.
    - Slices are views on backing arrays kept in a heap, so that aliasing
      between the caller's input and the working copy is visible. *)

From Stdlib Require Import ZArith QArith Qfield Lia.
From Stdlib Require Import PrimFloat.
From Stdlib Require Uint63.
From stdpp Require Import base tactics option list.

Local Open Scope Z_scope.

(** ** Floating-point interface *)

Class Float64Ops := {
  float64 : Type;
  fzero : float64;                         (* 0.0 *)
  fone : float64;                          (* 1.0 *)
  fadd : float64 -> float64 -> float64;    (* a + b *)
  fsub : float64 -> float64 -> float64;    (* a - b *)
  fmul : float64 -> float64 -> float64;    (* a * b *)
  fdiv : float64 -> float64 -> float64;    (* a / b *)
  fpow2 : float64 -> float64;              (* math.Pow(a, 2) *)
  of_int : Z -> float64;                   (* float64(n) *)
  fgt : float64 -> float64 -> bool;        (* a > b *)
  flt : float64 -> float64 -> bool;        (* a < b *)
  fge : float64 -> float64 -> bool;        (* a >= b *)
  feq : float64 -> float64 -> bool         (* a == b *)
}.

(** ** Pseudo-random generator interface

    [NewSource seed] is [rand.New(rand.NewSource(seed))]; [Int31n r n]
    draws a number in [[0, n)] and advances the generator. *)

Class RandSource := {
  Rand : Type;
  NewSource : Z -> Rand;
  Int31n : Rand -> Z -> Z * Rand;
  Int31n_range : forall r n, 0 < n -> 0 <= fst (Int31n r n) < n
}.

(** Go's [error] values; the program only ever passes them on. *)
Definition error := unit.

Section Statistic.
Context {FO : Float64Ops}.

(** *** gonum helpers used by [cbsStat] *)

(** [floats.Sum]. *)
Definition Sum (s : list float64) : float64 := fold_left fadd s fzero.

(** [stat.Mean(x, nil)]: the sum divided by the number of elements. *)
Definition Mean (x : list float64) : float64 :=
  fdiv (Sum x) (of_int (Z.of_nat (length x))).

(** [floats.CumSum(dst, s)]: [dst[0] = s[0]], [dst[i] = dst[i-1] + s[i]]. *)
Fixpoint CumSum_from (acc : float64) (s : list float64) : list float64 :=
  match s with
  | [] => []
  | v :: s' => let a := fadd acc v in a :: CumSum_from a s'
  end.

Definition CumSum (s : list float64) : list float64 :=
  match s with
  | [] => []
  | v :: s' => v :: CumSum_from v s'
  end.

(** [floats.MaxIdx]: index of the maximum, the first one on ties.  The
    scan keeps the best value seen so far and moves only on a strictly
    greater one.  (gonum panics on an empty slice; [cbsStat] never passes
    one.) *)
Fixpoint MaxIdx_from (best : float64) (ind i : Z) (s : list float64) : Z :=
  match s with
  | [] => ind
  | v :: s' =>
      if fgt v best then MaxIdx_from v i (i + 1) s'
      else MaxIdx_from best ind (i + 1) s'
  end.

Definition MaxIdx (s : list float64) : Z :=
  match s with
  | [] => 0
  | v :: s' => MaxIdx_from v 0 1 s'
  end.

(** [floats.MinIdx]: index of the minimum, the first one on ties. *)
Fixpoint MinIdx_from (best : float64) (ind i : Z) (s : list float64) : Z :=
  match s with
  | [] => ind
  | v :: s' =>
      if flt v best then MinIdx_from v i (i + 1) s'
      else MinIdx_from best ind (i + 1) s'
  end.

Definition MinIdx (s : list float64) : Z :=
  match s with
  | [] => 0
  | v :: s' => MinIdx_from v 0 1 s'
  end.

(** *** [cbsStat] *)

(** [y]: the cumulative sum of the mean-centered values. *)
Definition centered_cumsum (x : list float64) : list float64 :=
  let mean := Mean x in
  let x0 := map (fun val => fsub val mean) x in
  CumSum x0.

(** [(i0, i1)]: the two extrema of [y] in index order. *)
Definition extrema (y : list float64) : Z * Z :=
  let e0 := MaxIdx y in
  let e1 := MinIdx y in
  if e1 <? e0 then (e1, e0) else (e0, e1).

(** [y[i]] for an index known to be in range. *)
Definition at_index (y : list float64) (i : Z) : float64 :=
  nth (Z.to_nat i) y fzero.

Definition denominator (length : float64) (i0 i1 : Z) : float64 :=
  fmul (fadd (of_int (i1 - i0)) fone) (fsub length (of_int (i1 - i0))).

Definition cbsStat (x : list float64) : float64 * Z * Z * option error :=
  match x with
  | [] => (fzero, 0, 0, None)
  | _ =>
      let length := of_int (Z.of_nat (length x)) in
      let y := centered_cumsum x in
      let '(i0, i1) := extrema y in
      let s0 := at_index y i0 in
      let s1 := at_index y i1 in
      let denominator := denominator length i0 i1 in
      if feq denominator fzero then (fzero, i0, i1 + 1, None)
      else (fdiv (fmul (fpow2 (fsub s1 s0)) length) denominator,
            i0, i1 + 1, None)
  end.

End Statistic.

(** ** Memory: backing arrays, slices and the generator

    A slice is a window [[s_off, s_off + s_len)] on the backing array
    number [s_base].  [make] appends a new array to the heap, so the
    slice it returns shares no element with an older one. *)

Record slice := Slice { s_base : nat; s_off : nat; s_len : nat }.

(** [len(x)] *)
Definition len (x : slice) : Z := Z.of_nat (s_len x).

Section Machine.
Context {FO : Float64Ops} {RS : RandSource}.

Record state := State { heap : list (list float64); rng : Rand }.

(** A computation either returns a value and a new state, or stops with
    a Go run-time panic; [OutOfFuel] is the recursion bound running out. *)
Inductive outcome (A : Type) : Type :=
  | Done (a : A) (st : state)
  | Panic
  | OutOfFuel.
Arguments Done {A} a st.
Arguments Panic {A}.
Arguments OutOfFuel {A}.

Definition M (A : Type) : Type := state -> outcome A.

#[global] Instance M_ret : MRet M := fun A a st => Done a st.
#[global] Instance M_bind : MBind M := fun A B f m st =>
  match m st with
  | Done a st' => f a st'
  | Panic => Panic
  | OutOfFuel => OutOfFuel
  end.

Definition panic {A} : M A := fun _ => Panic.

(** The elements of [x], in order. *)
Definition view (h : list (list float64)) (x : slice) : list float64 :=
  take (s_len x) (drop (s_off x) (default [] (h !! s_base x))).

(** [x] lies inside an allocated array. *)
Definition valid (h : list (list float64)) (x : slice) : Prop :=
  (s_base x < length h)%nat /\
  (s_off x + s_len x <= length (default [] (h !! s_base x)))%nat.

(** Reading all of [x] (what a [range] loop or a gonum call sees). *)
Definition read (x : slice) : M (list float64) := fun st =>
  match heap st !! s_base x with
  | Some a =>
      if decide (s_off x + s_len x <= length a)%nat
      then Done (take (s_len x) (drop (s_off x) a)) st
      else Panic
  | None => Panic
  end.

(** [x[i]] *)
Definition load (x : slice) (i : Z) : M float64 := fun st =>
  if decide (0 <= i < len x) then
    match heap st !! s_base x with
    | Some a =>
        match a !! (s_off x + Z.to_nat i)%nat with
        | Some v => Done v st
        | None => Panic
        end
    | None => Panic
    end
  else Panic.

(** [x[i] = v] *)
Definition store (x : slice) (i : Z) (v : float64) : M unit := fun st =>
  if decide (0 <= i < len x) then
    match heap st !! s_base x with
    | Some a =>
        if decide (s_off x + Z.to_nat i < length a)%nat
        then Done tt (State (<[s_base x := <[(s_off x + Z.to_nat i)%nat := v]> a]>
                               (heap st)) (rng st))
        else Panic
    | None => Panic
    end
  else Panic.

(** [make([]float64, n)] *)
Definition make (n : Z) : M slice := fun st =>
  if decide (0 <= n) then
    Done (Slice (length (heap st)) 0 (Z.to_nat n))
         (State (heap st ++ [replicate (Z.to_nat n) fzero]) (rng st))
  else Panic.

(** [copy(dst, src)]: the first [min(len(dst), len(src))] elements. *)
Definition copy (dst src : slice) : M unit := fun st =>
  match read src st with
  | Done vs _ =>
      let n := Nat.min (s_len dst) (s_len src) in
      match heap st !! s_base dst with
      | Some a =>
          if decide (s_off dst + s_len dst <= length a)%nat
          then Done tt (State (<[s_base dst :=
                                   take (s_off dst) a ++ take n vs ++
                                   drop (s_off dst + n) a]> (heap st)) (rng st))
          else Panic
      | None => Panic
      end
  | Panic => Panic
  | OutOfFuel => OutOfFuel
  end.

(** [x[lo:hi]] (bounds checked against [len(x)]). *)
Definition subslice (x : slice) (lo hi : Z) : M slice :=
  if decide (0 <= lo /\ lo <= hi /\ hi <= len x)
  then mret (Slice (s_base x) (s_off x + Z.to_nat lo) (Z.to_nat (hi - lo)))
  else panic.

(** One draw from the shared generator. *)
Definition draw (n : Z) : M Z := fun st =>
  let '(j, r) := Int31n (rng st) n in Done j (State (heap st) r).

(** [rng.Shuffle(n, swap)]: Fisher-Yates from the last index down,
    [for i := n-1; i > 0; i-- { j := int31n(i+1); swap(i, j) }]. *)
Fixpoint Shuffle_loop (i : nat) (swap : Z -> Z -> M unit) : M unit :=
  match i with
  | O => mret tt
  | S i' =>
      j ← draw (Z.of_nat i + 1);
      swap (Z.of_nat i) j;;
      Shuffle_loop i' swap
  end.

Definition Shuffle (n : Z) (swap : Z -> Z -> M unit) : M unit :=
  if decide (n < 0) then panic
  else Shuffle_loop (Z.to_nat (n - 1)) swap.

(** The closure [func(i, j int) { xt[i], xt[j] = xt[j], xt[i] }]. *)
Definition swap_in (xt : slice) (i j : Z) : M unit :=
  a ← load xt j;
  b ← load xt i;
  store xt i a;;
  store xt j b.

(** ** [cbsInner] *)

(** The permutation loop, [k] iterations to go. *)
Fixpoint permutations (k : nat) (xt : slice) (maxT : float64)
    (maxStart maxEnd : Z) (alpha : float64) (threshCount : Z)
    : M (bool * float64 * Z * Z * option error) :=
  match k with
  | O => mret (true, maxT, maxStart, maxEnd, None)
  | S k' =>
      Shuffle (len xt) (swap_in xt);;
      xs ← read xt;
      let '(threshold, _, _, err) := cbsStat xs in
      match err with
      | Some e => mret (false, fzero, 0, 0, Some e)
      | None =>
          let threshCount :=
            if fge threshold maxT then threshCount + 1 else threshCount in
          if fgt (of_int threshCount) alpha
          then mret (false, maxT, maxStart, maxEnd, None)
          else permutations k' xt maxT maxStart maxEnd alpha threshCount
      end
  end.

Definition cbsInner (x : slice) (shuffles : Z) (p : float64)
    : M (bool * float64 * Z * Z * option error) :=
  xs ← read x;
  let '(maxT, maxStart, maxEnd, err) := cbsStat xs in
  match err with
  | Some e => mret (false, fzero, 0, 0, Some e)
  | None =>
      if maxEnd - maxStart =? len x
      then mret (false, maxT, maxStart, maxEnd, None)
      else
        let maxStart := if maxStart <? 5 then 0 else maxStart in
        let maxEnd := if len x - maxEnd <? 5 then len x else maxEnd in
        let threshCount := 0 in
        let alpha := fmul (of_int shuffles) p in
        xt ← make (len x);
        copy xt x;;
        permutations (Z.to_nat shuffles) xt maxT maxStart maxEnd alpha
                     threshCount
  end.

(** ** [rsegment]

    [l] is the list behind the pointer [*l]; the updated list is
    returned next to the error.  The recursion is bounded by [fuel];
    [rsegment_total] shows that [end - start] is always enough. *)
Fixpoint rsegment (fuel : nat) (x : slice) (start end_ : Z)
    (l : list (Z * Z)) (shuffles : Z) (p : float64)
    : M (list (Z * Z) * option error) :=
  match fuel with
  | O => fun _ => OutOfFuel
  | S fuel' =>
      if start >=? end_ then mret (l, None)
      else
        xs ← subslice x start end_;
        '(isChange, _, s, e, err) ← cbsInner xs shuffles p;
        match err with
        | Some er => mret (l, Some er)
        | None =>
            if negb isChange || (e - s <? 5) || (e - s =? end_ - start)
            then mret (l ++ [(start, end_)], None)
            else
              '(l, err) ←
                (if s >? 0
                 then rsegment fuel' x start (start + s) l shuffles p
                 else mret (l, None));
              match err with
              | Some er => mret (l, Some er)
              | None =>
                  let l := if e - s >? 0
                           then l ++ [(start + s, start + e)] else l in
                  if start + e <? end_
                  then
                    '(l, err) ← rsegment fuel' x (start + e) end_ l shuffles p;
                    match err with
                    | Some er => mret (l, Some er)
                    | None => mret (l, None)
                    end
                  else mret (l, None)
              end
        end
  end.

(** ** [CBS]

    [now] is the reading of [time.Now().UnixNano()].  The generator is
    created here, so a call is a function of the heap alone. *)
Definition CBS (x : slice) (shuffles : Z) (significanceLevel : float64)
    (seed : Z) (now : Z) (h : list (list float64))
    : outcome (list (Z * Z) * option error) :=
  let rng := if seed =? 0 then NewSource seed else NewSource now in
  let segments := [] in
  match rsegment (S (s_len x)) x 0 (len x) segments shuffles
                 significanceLevel (State h rng) with
  | Done (segments, err) st =>
      match err with
      | Some er => Done ([], Some er) st
      | None => Done (segments, None) st
      end
  | Panic => Panic
  | OutOfFuel => OutOfFuel
  end.

End Machine.

Arguments Done {FO RS A} a st.
Arguments Panic {FO RS A}.
Arguments OutOfFuel {FO RS A}.

(** ** Exact rational arithmetic *)

#[export] Instance QOps : Float64Ops := {|
  float64 := Q;
  fzero := 0%Q;
  fone := 1%Q;
  fadd := Qplus;
  fsub := Qminus;
  fmul := Qmult;
  fdiv := Qdiv;
  fpow2 := fun a => Qmult a a;
  of_int := inject_Z;
  fgt := fun a b => negb (Qle_bool a b);
  flt := fun a b => negb (Qle_bool b a);
  fge := fun a b => Qle_bool b a;
  feq := Qeq_bool
|}.

(** ** IEEE binary64 arithmetic *)

(** [float64(n)] for a Go [int]. *)
Definition float_of_int (z : Z) : PrimFloat.float :=
  if z <? 0
  then PrimFloat.opp (PrimFloat.of_uint63 (Uint63.of_Z (- z)))
  else PrimFloat.of_uint63 (Uint63.of_Z z).

(** The operations of Go on [float64].  [math.Pow(a, 2)] is taken as
    [a * a]: the same value, except that on a subnormal square
    [math.Pow] rounds twice. *)
Definition F64Ops : Float64Ops := {|
  float64 := PrimFloat.float;
  fzero := PrimFloat.zero;
  fone := PrimFloat.one;
  fadd := PrimFloat.add;
  fsub := PrimFloat.sub;
  fmul := PrimFloat.mul;
  fdiv := PrimFloat.div;
  fpow2 := fun a => PrimFloat.mul a a;
  of_int := float_of_int;
  fgt := fun a b => PrimFloat.ltb b a;
  flt := fun a b => PrimFloat.ltb a b;
  fge := fun a b => PrimFloat.leb b a;
  feq := PrimFloat.eqb
|}.

(** ** A small linear congruential generator *)

#[export] Instance LCG : RandSource := {|
  Rand := Z;
  NewSource := fun seed => seed mod 2147483648;
  Int31n := fun r n =>
    let r' := (r * 1103515245 + 12345) mod 2147483648 in
    ((r' / 65536) mod n, r');
  Int31n_range := fun r n Hn =>
    Z.mod_pos_bound (((r * 1103515245 + 12345) mod 2147483648) / 65536) n Hn
|}.

Definition steps : list Q :=
  map inject_Z [1; 1; 1; 3; 3; 2; 1; 2; 3; 300; 310; 321; 310; 299].

Definition whole (xs : list Q) : slice := Slice 0 0 (length xs).

Definition result {A} (o : outcome (FO:=QOps) (RS:=LCG) A) : option A :=
  match o with Done a _ => Some a | _ => None end.

Definition end_state {A} (o : outcome (FO:=QOps) (RS:=LCG) A) : state :=
  match o with Done _ st => st | _ => State [] 0 end.

(** A noisy sequence on which the permutation test is not clear-cut. *)
Definition noisy : list Q :=
  map inject_Z [0; 1; 0; 0; 1; 0; 1; 1; 0; 1; 1; 1].

(** *** Inputs in binary64 *)

Definition whole64 (xs : list PrimFloat.float) : slice :=
  Slice 0 0 (length xs).

Definition result64 {A} (o : outcome (FO:=F64Ops) (RS:=LCG) A) : option A :=
  match o with Done a _ => Some a | _ => None end.

(** The exact cumulative sum of the centered values has its minimum at
    the indices 0 and 3; the rounded one at 3 only. *)
Definition rounding_tie : list PrimFloat.float :=
  map float_of_int [1; 3; 2; 0; 3; 1].


Definition tenths : list PrimFloat.float :=
  replicate 3 0x1.999999999999ap-4%float.

Definition huge : list PrimFloat.float :=
  replicate 6 0x1.1ccf385ebc8ap+1023%float.

(** The significance level [0.05]. *)
Definition five_percent : PrimFloat.float := 0x1.999999999999ap-5%float.

(** ** Vocabulary of the specification *)

(** The slice [make] returns on heap [h]. *)
Definition fresh_slice {A} (h : list A) (n : nat) : slice :=
  Slice (length h) 0 n.

(** Consecutive non-empty segments leading from [a] to [b]. *)
Fixpoint chain (a b : Z) (segs : list (Z * Z)) : Prop :=
  match segs with
  | [] => a = b
  | (s, e) :: rest => s = a /\ s < e /\ chain e b rest
  end.

Definition long_enough (seg : Z * Z) : Prop := 5 <= seg.2 - seg.1.

(** Sorting by start index, as the test does before comparing. *)
Fixpoint insert_by_start (s : Z * Z) (l : list (Z * Z)) : list (Z * Z) :=
  match l with
  | [] => [s]
  | t :: l' => if s.1 <? t.1 then s :: t :: l' else t :: insert_by_start s l'
  end.

Definition sort_by_start (l : list (Z * Z)) : list (Z * Z) :=
  foldr insert_by_start [] l.

Definition disjoint (s t : Z * Z) : Prop := s.2 <= t.1 \/ t.2 <= s.1.

(** [segs] is an exact partition of [[0, n)]. *)
Definition exact_partition (n : Z) (segs : list (Z * Z)) : Prop :=
  (segs = [] -> n = 0)
  /\ (forall s, head segs = Some s -> s.1 = 0)
  /\ (forall i s t, segs !! i = Some s -> segs !! S i = Some t -> s.2 = t.1)
  /\ (forall s, last segs = Some s -> s.2 = n)
  /\ (forall s, s ∈ segs -> 0 <= s.1 /\ s.1 < s.2 /\ s.2 <= n)
  /\ (forall i j s t, i <> j -> segs !! i = Some s -> segs !! j = Some t ->
                     disjoint s t).

(** The boundary-snap heuristic of [cbsInner]. *)
Definition snap_start (maxStart : Z) : Z :=
  if maxStart <? 5 then 0 else maxStart.
Definition snap_end (n maxEnd : Z) : Z :=
  if n - maxEnd <? 5 then n else maxEnd.

(** The three parts a splitting frame [[start, end)] hands on. *)
Definition parts (start end_ s e : Z) : list (Z * Z) :=
  [(start, start + s); (start + s, start + e); (start + e, end_)].

Definition strictly_inside (start end_ : Z) (c : Z * Z) : Prop :=
  start <= c.1 /\ c.1 <= c.2 /\ c.2 <= end_ /\ c.2 - c.1 < end_ - start.

(** *** Vocabulary for the statistic *)

Section OrderVocabulary.
Context {FO : Float64Ops}.






(** The running sums of [z] stay at [z], and [z] compares neither above
    nor below itself: a zero, and in float64 an infinity or NaN too. *)
Definition stationary (z : float64) : Prop :=
  fadd z z = z /\ fgt z z = false /\ flt z z = false.

(** Each value is beyond the one before it, in the sense of [gt]. *)
Fixpoint climbs (gt : float64 -> float64 -> bool) (y : list float64) : bool :=
  match y with
  | a :: (b :: _) as y' => gt b a && climbs gt y'
  | _ => true
  end.

(** [y] climbs in the sense of [gt], and no value is on the other side
    ([lt]) of the first one. *)
Definition monotone (gt lt : float64 -> float64 -> bool) (y : list float64)
    : bool :=
  climbs gt y &&
  match y with
  | [] => true
  | a :: y' => forallb (fun v => negb (lt v a)) y'
  end.

Definition falling (y : list float64) : bool := monotone flt fgt y.

End OrderVocabulary.

(** *** Exact-arithmetic vocabulary *)

Definition Qsum (l : list Q) : Q := foldr Qplus 0%Q l.

(** [a] is the negation of [b]. *)
Definition negated (a b : Q) : Prop := (a == - b)%Q.

(** * Verified properties *)

(** ** The statistic: index ranges *)

Section StatisticFacts.
Context {FO : Float64Ops}.

Lemma CumSum_from_length acc s : length (CumSum_from acc s) = length s.
Proof. revert acc; induction s as [|v s IH]; intros acc; simpl; [done|]. by rewrite IH. Qed.

Lemma CumSum_length s : length (CumSum s) = length s.
Proof. destruct s; simpl; [done|]. by rewrite CumSum_from_length. Qed.

Lemma centered_cumsum_length x : length (centered_cumsum x) = length x.
Proof. unfold centered_cumsum. by rewrite CumSum_length, length_map. Qed.

Lemma MaxIdx_from_range best ind i s :
  0 <= ind < i ->
  0 <= MaxIdx_from best ind i s < i + Z.of_nat (length s).
Proof.
  revert best ind i; induction s as [|v s IH]; intros best ind i Hi; simpl.
  - lia.
  - destruct (fgt v best).
    + specialize (IH v i (i + 1)). lia.
    + specialize (IH best ind (i + 1)). lia.
Qed.

Lemma MinIdx_from_range best ind i s :
  0 <= ind < i ->
  0 <= MinIdx_from best ind i s < i + Z.of_nat (length s).
Proof.
  revert best ind i; induction s as [|v s IH]; intros best ind i Hi; simpl.
  - lia.
  - destruct (flt v best).
    + specialize (IH v i (i + 1)). lia.
    + specialize (IH best ind (i + 1)). lia.
Qed.

Lemma MaxIdx_range s : s <> [] -> 0 <= MaxIdx s < Z.of_nat (length s).
Proof.
  destruct s as [|v s]; [done|]; intros _; simpl.
  pose proof (MaxIdx_from_range v 0 1 s). lia.
Qed.

Lemma MinIdx_range s : s <> [] -> 0 <= MinIdx s < Z.of_nat (length s).
Proof.
  destruct s as [|v s]; [done|]; intros _; simpl.
  pose proof (MinIdx_from_range v 0 1 s). lia.
Qed.

Lemma extrema_range y i0 i1 :
  y <> [] -> extrema y = (i0, i1) -> 0 <= i0 /\ i0 <= i1 /\ i1 < Z.of_nat (length y).
Proof.
  intros Hy. unfold extrema.
  pose proof (MaxIdx_range y Hy). pose proof (MinIdx_range y Hy).
  destruct (Z.ltb_spec (MinIdx y) (MaxIdx y)); intros [= <- <-]; lia.
Qed.

(** The split returned by [cbsStat] on a non-empty input is a non-empty
    interval inside the input, and no error is ever reported. *)
Lemma cbsStat_bounds x t s e err :
  x <> [] -> cbsStat x = (t, s, e, err) ->
  0 <= s /\ s < e /\ e <= Z.of_nat (length x) /\ err = None.
Proof.
  intros Hx. unfold cbsStat. destruct x as [|v x']; [done|].
  set (x := v :: x') in *.
  destruct (extrema (centered_cumsum x)) as [i0 i1] eqn:He.
  apply extrema_range in He.
  2:{ intros Hnil. apply (f_equal length) in Hnil. rewrite centered_cumsum_length in Hnil. done. }
  rewrite centered_cumsum_length in He.
  destruct (feq _ _); intros [= <- <- <- <-]; repeat split; lia.
Qed.

Lemma cbsStat_no_error x : (cbsStat x).2 = None.
Proof.
  unfold cbsStat. destruct x; [done|].
  destruct (extrema _); destruct (feq _ _); done.
Qed.

End StatisticFacts.

(** ** Lists: swapping two elements *)

Section ListFacts.
Context {A : Type}.
Implicit Types l : list A.

Lemma insert_cons_Permutation l j b c :
  l !! j = Some c -> c :: <[j:=b]> l ≡ₚ b :: l.
Proof.
  revert j; induction l as [|a l IH]; intros [|j] Hj; simplify_eq/=.
  - apply Permutation_swap.
  - rewrite (Permutation_swap a c), (IH _ Hj). apply Permutation_swap.
Qed.

Lemma swap_Permutation l i j b c :
  l !! i = Some b -> l !! j = Some c -> <[j:=b]> (<[i:=c]> l) ≡ₚ l.
Proof.
  revert i j; induction l as [|a l IH]; intros [|i] [|j] Hi Hj; simplify_eq/=.
  - done.
  - by apply insert_cons_Permutation.
  - symmetry. rewrite <- (insert_cons_Permutation l i c b Hi) at 1. done.
  - f_equiv. by apply IH.
Qed.

End ListFacts.

(** ** The heap, the shuffle and the permutation loop *)

Section MachineFacts.
Context {FO : Float64Ops} {RS : RandSource}.
Implicit Types (h : list (list float64)) (a : list float64) (r : Rand) (x : slice).

Lemma bind_Done {A B} (m : M A) (f : A -> M B) st v st' :
  m st = Done v st' -> (m ≫= f) st = f v st'.
Proof. intros H. unfold mbind, M_bind. by rewrite H. Qed.

Lemma valid_lookup h x :
  valid h x ->
  exists a, h !! s_base x = Some a /\ (s_off x + s_len x <= length a)%nat.
Proof.
  intros [Hb Hl]. destruct (lookup_lt_is_Some_2 h (s_base x) Hb) as [a Ha].
  rewrite Ha in Hl. eauto.
Qed.

Lemma view_length h x : valid h x -> length (view h x) = s_len x.
Proof.
  intros (a & Ha & Hl)%valid_lookup. unfold view. rewrite Ha; simpl.
  rewrite length_take, length_drop. lia.
Qed.

Lemma valid_app h h' x : valid h x -> valid (h ++ h') x.
Proof.
  intros Hv. destruct (valid_lookup _ _ Hv) as (a & Ha & Hl).
  destruct Hv as [Hb _]. split.
  - rewrite length_app. lia.
  - rewrite lookup_app_l by done. by rewrite Ha.
Qed.

Lemma view_app h h' x : valid h x -> view (h ++ h') x = view h x.
Proof. intros [Hb _]. unfold view. by rewrite lookup_app_l. Qed.

Lemma read_view h r x :
  valid h x -> read x (State h r) = Done (view h x) (State h r).
Proof.
  intros (a & Ha & Hl)%valid_lookup. unfold read, view; simpl.
  rewrite Ha; simpl. by rewrite decide_True.
Qed.

Lemma subslice_Done x lo hi st :
  0 <= lo -> lo <= hi -> hi <= len x ->
  subslice x lo hi st =
    Done (Slice (s_base x) (s_off x + Z.to_nat lo) (Z.to_nat (hi - lo))) st.
Proof. intros. unfold subslice. by rewrite decide_True. Qed.

Lemma subslice_valid h x lo hi :
  valid h x -> 0 <= lo -> lo <= hi -> hi <= len x ->
  valid h (Slice (s_base x) (s_off x + Z.to_nat lo) (Z.to_nat (hi - lo))).
Proof. unfold valid, len; simpl. intros [? ?] ? ? ?. split; [done|lia]. Qed.

(** The working copy: [xt := make(len(x)); copy(xt, x)] puts a new array
    holding the elements of [x] at the end of the heap. *)
Lemma make_copy {A} (k : slice -> M A) h r x :
  valid h x ->
  (make (len x) ≫= fun xt => copy xt x ≫= fun _ => k xt) (State h r) =
  k (fresh_slice h (s_len x)) (State (h ++ [view h x]) r).
Proof.
  intros Hv. pose proof (view_length _ _ Hv) as Hlen.
  unfold mbind, M_bind, make, len; simpl.
  rewrite decide_True by lia. rewrite Nat2Z.id.
  unfold copy. rewrite (read_view _ _ _ (valid_app _ _ _ Hv)); simpl.
  rewrite lookup_app_r by done. rewrite Nat.sub_diag; simpl.
  rewrite length_replicate, decide_True by done.
  rewrite view_app by done. rewrite Nat.min_id.
  rewrite (take_ge (view h x)) by lia.
  rewrite drop_ge by (rewrite length_replicate; lia).
  rewrite app_nil_r.
  rewrite insert_app_r_alt by done. by rewrite Nat.sub_diag.
Qed.

Lemma load_fresh h a r i v :
  a !! Z.to_nat i = Some v -> 0 <= i ->
  load (fresh_slice h (length a)) i (State (h ++ [a]) r) =
  Done v (State (h ++ [a]) r).
Proof.
  intros Hv Hi. pose proof (lookup_lt_Some _ _ _ Hv).
  unfold load, len; simpl. rewrite decide_True by lia.
  rewrite lookup_app_r by done. rewrite Nat.sub_diag; simpl. by rewrite Hv.
Qed.

Lemma store_fresh h a r i v :
  0 <= i < Z.of_nat (length a) ->
  store (fresh_slice h (length a)) i v (State (h ++ [a]) r) =
  Done tt (State (h ++ [<[Z.to_nat i := v]> a]) r).
Proof.
  intros Hi. unfold store, len; simpl. rewrite decide_True by lia.
  rewrite lookup_app_r by done. rewrite Nat.sub_diag; simpl.
  rewrite decide_True by lia.
  rewrite insert_app_r_alt by done. by rewrite Nat.sub_diag.
Qed.

Lemma swap_in_fresh h a r i j :
  0 <= i < Z.of_nat (length a) -> 0 <= j < Z.of_nat (length a) ->
  exists a', swap_in (fresh_slice h (length a)) i j (State (h ++ [a]) r) =
               Done tt (State (h ++ [a']) r)
             /\ a' ≡ₚ a /\ length a' = length a.
Proof.
  intros Hi Hj.
  destruct (lookup_lt_is_Some_2 a (Z.to_nat i)) as [b Hb]; [lia|].
  destruct (lookup_lt_is_Some_2 a (Z.to_nat j)) as [c Hc]; [lia|].
  exists (<[Z.to_nat j := b]> (<[Z.to_nat i := c]> a)). split; [|split].
  - unfold swap_in.
    rewrite (bind_Done _ _ _ _ _ (load_fresh h a r j c Hc (proj1 Hj))).
    rewrite (bind_Done _ _ _ _ _ (load_fresh h a r i b Hb (proj1 Hi))).
    rewrite (bind_Done _ _ _ _ _ (store_fresh h a r i c Hi)).
    pose proof (store_fresh h (<[Z.to_nat i := c]> a) r j b) as Hs.
    rewrite length_insert in Hs. by apply Hs.
  - by apply swap_Permutation.
  - by rewrite !length_insert.
Qed.

Lemma draw_range r h n :
  0 < n ->
  exists j r', draw n (State h r) = Done j (State h r') /\ 0 <= j < n.
Proof.
  intros Hn. unfold draw; simpl. pose proof (Int31n_range r n Hn) as Hr.
  destruct (Int31n r n) as [j r']; simpl in *. eauto.
Qed.

Lemma Shuffle_loop_fresh h (i : nat) : forall a r,
  (i < length a)%nat ->
  exists a' r', Shuffle_loop i (swap_in (fresh_slice h (length a)))
                  (State (h ++ [a]) r) = Done tt (State (h ++ [a']) r')
                /\ a' ≡ₚ a /\ length a' = length a.
Proof.
  induction i as [|i IH]; intros a r Hi.
  - exists a, r. done.
  - cbn [Shuffle_loop].
    destruct (draw_range r (h ++ [a]) (Z.of_nat (S i) + 1)) as (j & r1 & Hd & Hj); [lia|].
    rewrite (bind_Done _ _ _ _ _ Hd).
    destruct (swap_in_fresh h a r1 (Z.of_nat (S i)) j) as (a1 & Hs & Hp & Hl); [lia..|].
    rewrite (bind_Done _ _ _ _ _ Hs).
    destruct (IH a1 r1) as (a2 & r2 & Hr & Hp2 & Hl2); [lia|].
    rewrite <- Hl. exists a2, r2. split; [done|]. split; [by etrans|lia].
Qed.

Lemma Shuffle_fresh h a r :
  exists a' r', Shuffle (Z.of_nat (length a)) (swap_in (fresh_slice h (length a)))
                  (State (h ++ [a]) r) = Done tt (State (h ++ [a']) r')
                /\ a' ≡ₚ a /\ length a' = length a.
Proof.
  unfold Shuffle. rewrite decide_False by lia.
  destruct a as [|v a].
  - exists [], r. done.
  - apply Shuffle_loop_fresh. simpl. lia.
Qed.

Lemma read_fresh h a r :
  read (fresh_slice h (length a)) (State (h ++ [a]) r) = Done a (State (h ++ [a]) r).
Proof.
  unfold read; simpl. rewrite lookup_app_r by done. rewrite Nat.sub_diag; simpl.
  rewrite decide_True by done. by rewrite drop_0, firstn_all.
Qed.

(** The permutation loop only ever touches the working copy. *)
Lemma permutations_fresh h maxT maxStart maxEnd alpha (k : nat) :
  forall a r threshCount,
  exists b a' r',
    permutations k (fresh_slice h (length a)) maxT maxStart maxEnd alpha
      threshCount (State (h ++ [a]) r)
    = Done (b, maxT, maxStart, maxEnd, None) (State (h ++ [a']) r')
    /\ a' ≡ₚ a.
Proof.
  induction k as [|k IH]; intros a r threshCount.
  - exists true, a, r. done.
  - cbn [permutations]. unfold len; cbn [s_len fresh_slice].
    destruct (Shuffle_fresh h a r) as (a1 & r1 & Hs & Hp & Hl).
    rewrite (bind_Done _ _ _ _ _ Hs). rewrite <- Hl.
    rewrite (bind_Done _ _ _ _ _ (read_fresh h a1 r1)).
    pose proof (cbsStat_no_error a1) as Hne.
    destruct (cbsStat a1) as [[[threshold ?] ?] err]; simpl in Hne; subst err.
    destruct (fgt _ alpha).
    + exists false, a1, r1. done.
    + destruct (IH a1 r1 (if fge threshold maxT then threshCount + 1 else threshCount))
        as (b & a2 & r2 & Hr & Hp2).
      exists b, a2, r2. split; [done|by etrans].
Qed.

End MachineFacts.

(** ** The detector and the segmenter *)

Section SegmenterFacts.
Context {FO : Float64Ops} {RS : RandSource}.
Implicit Types (h : list (list float64)) (r : Rand) (x : slice).

Lemma chain_app a m b l1 l2 : chain a m l1 -> chain m b l2 -> chain a b (l1 ++ l2).
Proof.
  revert a; induction l1 as [|[s e] l1 IH]; intros a; simpl.
  - by intros ->.
  - intros (-> & ? & ?) ?. eauto.
Qed.

Lemma chain_le a b l : chain a b l -> a <= b.
Proof.
  revert a; induction l as [|[s e] l IH]; intros a; simpl; [lia|].
  intros (-> & ? & ?%IH). lia.
Qed.

(** What [cbsInner] returns on a non-empty sub-sequence: a split
    [0 <= s < e <= len(x)] whose ends are snapped, no error, and a heap
    that differs from the old one by at most the working copy. *)
Lemma cbsInner_spec x shuffles p h r :
  valid h x -> (0 < s_len x)%nat ->
  exists b t s e h' r',
    cbsInner x shuffles p (State h r) = Done (b, t, s, e, None) (State (h ++ h') r')
    /\ 0 <= s /\ s < e /\ e <= len x
    /\ (s = 0 \/ 5 <= s) /\ (e = len x \/ 5 <= len x - e)
    /\ (h' = [] \/ exists a', h' = [a'] /\ a' ≡ₚ view h x).
Proof.
  intros Hv Hn. unfold cbsInner.
  rewrite (bind_Done _ _ _ _ _ (read_view h r x Hv)).
  pose proof (view_length _ _ Hv) as Hlen.
  destruct (cbsStat (view h x)) as [[[maxT maxStart] maxEnd] err] eqn:Hstat.
  apply cbsStat_bounds in Hstat as (Hs & Hse & He & ->).
  2:{ intros Hnil. rewrite Hnil in Hlen. simpl in Hlen. lia. }
  rewrite Hlen in He. fold (len x) in He.
  destruct (Z.eqb_spec (maxEnd - maxStart) (len x)) as [Hw|Hw].
  - exists false, maxT, maxStart, maxEnd, [], r. rewrite app_nil_r.
    repeat split; try lia; auto.
  - rewrite make_copy by done.
    pose proof (permutations_fresh h maxT (if maxStart <? 5 then 0 else maxStart)
      (if len x - maxEnd <? 5 then len x else maxEnd)
      (fmul (of_int shuffles) p) (Z.to_nat shuffles) (view h x) r 0)
      as (b & a' & r' & Hp & Hperm).
    rewrite Hlen in Hp.
    eexists b, maxT, _, _, [a'], r'. split; [exact Hp|].
    destruct (Z.ltb_spec maxStart 5), (Z.ltb_spec (len x - maxEnd) 5);
      repeat split; try lia; eauto.
Qed.

(** The segmenter, by induction on the recursion bound. *)
Lemma rsegment_spec x shuffles p (fuel : nat) :
  forall start end_ l h r,
  valid h x -> 0 <= start -> start <= end_ -> end_ <= len x ->
  (Z.to_nat (end_ - start) < fuel)%nat ->
  exists segs h' r',
    rsegment fuel x start end_ l shuffles p (State h r)
    = Done (l ++ segs, None) (State (h ++ h') r')
    /\ chain start end_ segs
    /\ (5 <= end_ - start -> Forall long_enough segs)
    /\ (start < end_ -> end_ - start < 5 -> segs = [(start, end_)]).
Proof.
  induction fuel as [|fuel IH]; intros start end_ l h r Hv H0 Hse Hen Hf; [lia|].
  cbn [rsegment].
  destruct (Z.geb_spec start end_) as [Hge|Hlt].
  { exists [], [], r. rewrite !app_nil_r. repeat split; simpl; lia. }
  rewrite (bind_Done _ _ _ _ _ (subslice_Done x start end_ _ H0 Hse Hen)).
  set (xs := Slice _ _ _).
  assert (Hxs : valid h xs) by (by apply subslice_valid).
  assert (Hlen : len xs = end_ - start) by (unfold len, xs; simpl; lia).
  destruct (cbsInner_spec xs shuffles p h r Hxs) as
    (b & t & s & e & h1 & r1 & Hin & Hs0 & Hs & He & Hss & Hes & _).
  { unfold xs; simpl; lia. }
  rewrite (bind_Done _ _ _ _ _ Hin). rewrite Hlen in *. clear Hin.
  destruct (negb b || (e - s <? 5) || (e - s =? end_ - start)) eqn:Hstop.
  { exists [(start, end_)], h1, r1. repeat split; simpl; try lia; auto. }
  apply orb_false_iff in Hstop as [Hstop Hwhole].
  apply orb_false_iff in Hstop as [_ Hsmall].
  apply Z.ltb_ge in Hsmall. apply Z.eqb_neq in Hwhole.
  (* the part before the split *)
  assert (Hleft : exists segs1 h2 r2,
    ((if s >? 0 then rsegment fuel x start (start + s) l shuffles p
      else mret (l, None)) : M _) (State (h ++ h1) r1)
    = Done (l ++ segs1, None) (State (h ++ h2) r2)
    /\ chain start (start + s) segs1 /\ Forall long_enough segs1).
  { destruct (Z.gtb_spec s 0) as [Hpos|Hzero].
    - destruct (IH start (start + s) l (h ++ h1) r1) as
        (segs1 & h2 & r2 & Hr & Hc & Hl & _); [by apply valid_app|lia..|].
      exists segs1, (h1 ++ h2), r2. rewrite app_assoc. split; [done|].
      split; [done|]. apply Hl. lia.
    - exists [], h1, r1. rewrite app_nil_r. repeat split; simpl; [lia|constructor]. }
  destruct Hleft as (segs1 & h2 & r2 & Hr1 & Hc1 & Hl1).
  rewrite (bind_Done _ _ _ _ _ Hr1). clear Hr1.
  destruct (Z.gtb_spec (e - s) 0) as [_|?]; [|lia].
  assert (Hmid : chain start (start + e) (segs1 ++ [(start + s, start + e)])).
  { eapply chain_app; [done|]. simpl. lia. }
  assert (Hlmid : Forall long_enough (segs1 ++ [(start + s, start + e)])).
  { apply Forall_app; split; [done|]. repeat constructor. unfold long_enough; simpl; lia. }
  destruct (Z.ltb_spec (start + e) end_) as [Hright|Hright].
  - destruct (IH (start + e) end_ ((l ++ segs1) ++ [(start + s, start + e)]) (h ++ h2) r2)
      as (segs3 & h3 & r3 & Hr & Hc & Hl & _); [by apply valid_app|lia..|].
    rewrite (bind_Done _ _ _ _ _ Hr).
    exists ((segs1 ++ [(start + s, start + e)]) ++ segs3), (h2 ++ h3), r3.
    split; [by rewrite !app_assoc|]. split; [|split].
    + by eapply chain_app.
    + intros _. apply Forall_app; split; [done|]. apply Hl. lia.
    + lia.
  - assert (start + e = end_) as <- by lia.
    exists (segs1 ++ [(start + s, start + e)]), h2, r2.
    split; [by rewrite app_assoc|]. repeat split; auto; lia.
Qed.

End SegmenterFacts.

(** ** Chains of segments are sorted partitions *)

Lemma chain_lookup a b l i s :
  chain a b l -> l !! i = Some s -> a <= s.1 /\ s.1 < s.2 /\ s.2 <= b.
Proof.
  revert a i; induction l as [|[s' e'] l IH]; intros a i Hc Hi; [done|].
  destruct Hc as (-> & Hlt & Hc). pose proof (chain_le _ _ _ Hc).
  destruct i as [|i]; simplify_eq/=; [lia|].
  destruct (IH _ _ Hc Hi) as (? & ? & ?). lia.
Qed.

Lemma chain_adjacent a b l i s t :
  chain a b l -> l !! i = Some s -> l !! S i = Some t -> s.2 = t.1.
Proof.
  revert a i; induction l as [|[s' e'] l IH]; intros a i Hc Hi Hj; [done|].
  destruct Hc as (-> & Hlt & Hc).
  destruct i as [|i]; simplify_eq/=; [|by eapply IH].
  destruct l as [|[s2 e2] l]; simplify_eq/=. by destruct Hc as (-> & _).
Qed.

Lemma chain_last a b l s : chain a b l -> last l = Some s -> s.2 = b.
Proof.
  revert a; induction l as [|[s' e'] l IH]; intros a Hc Hl; [done|].
  destruct Hc as (-> & Hlt & Hc).
  destruct l as [|t l]; simplify_eq/=; [done|]. by eapply IH.
Qed.

Lemma chain_ordered a b l i j s t :
  chain a b l -> (i < j)%nat -> l !! i = Some s -> l !! j = Some t ->
  s.2 <= t.1.
Proof.
  revert a i j; induction l as [|[s' e'] l IH]; intros a i j Hc Hij Hi Hj; [done|].
  destruct Hc as (-> & Hlt & Hc).
  destruct j as [|j]; [lia|]. destruct i as [|i]; simplify_eq/=.
  - by destruct (chain_lookup _ _ _ _ _ Hc Hj) as (? & _).
  - apply (IH e' i j); [done|lia|done..].
Qed.

Lemma chain_sorted a b l : chain a b l -> sort_by_start l = l.
Proof.
  revert a; induction l as [|[s e] l IH]; intros a Hc; [done|].
  destruct Hc as (-> & Hlt & Hc). simpl. rewrite (IH _ Hc).
  destruct l as [|[s2 e2] l]; [done|]. destruct Hc as (-> & _). simpl.
  by rewrite (proj2 (Z.ltb_lt _ _) Hlt).
Qed.

Lemma chain_partition n l : chain 0 n l -> exact_partition n l.
Proof.
  intros Hc. split; [|split; [|split; [|split; [|split]]]].
  - by intros ->.
  - destruct l as [|[s e] l]; intros t [= <-]. by destruct Hc as (-> & _).
  - intros i s t. apply chain_adjacent with (1 := Hc).
  - intros s. apply chain_last with (1 := Hc).
  - intros s [i Hi]%list_elem_of_lookup. by eapply chain_lookup.
  - intros i j s t Hne Hi Hj. unfold disjoint.
    destruct (Nat.lt_total i j) as [Hlt|[?|Hlt]]; [|done|].
    + left. by eapply chain_ordered.
    + right. by eapply chain_ordered.
Qed.

(** ** Results on [CBS], for every arithmetic and every generator *)

Section Segmentation.
Context {FO : Float64Ops} {RS : RandSource}.
Implicit Types (h : list (list float64)) (r : Rand) (x : slice).

(** A call of [CBS] returns: no panic, no error, no exhausted bound.  The
    segments lead from [0] to [len(x)], and the heap only grows. *)
Lemma CBS_spec x shuffles p seed now h :
  valid h x ->
  exists segs h' r',
    CBS x shuffles p seed now h = Done (segs, None) (State (h ++ h') r')
    /\ chain 0 (len x) segs
    /\ (5 <= len x -> Forall long_enough segs)
    /\ (0 < len x -> len x < 5 -> segs = [(0, len x)]).
Proof.
  intros Hv. unfold CBS.
  destruct (rsegment_spec x shuffles p (S (s_len x)) 0 (len x) [] h
              (if seed =? 0 then NewSource seed else NewSource now))
    as (segs & h' & r' & Hr & Hc & Hl & Hs); [done|unfold len; lia..|].
  rewrite Hr. exists segs, h', r'. simpl.
  split; [done|]. split; [done|]. split.
  - intros ?. apply Hl; lia.
  - intros ? ?. apply Hs; lia.
Qed.

(** C2: whatever the input, the shuffle count, [p] and the seed, the
    segments [CBS] returns, sorted by start index, are an exact partition
    of [[0, n)]: the first starts at 0, each ends where the next starts,
    the last ends at [n], and no two overlap. *)
Theorem CBS_partition x shuffles p seed now h :
  valid h x ->
  exists segs st,
    CBS x shuffles p seed now h = Done (segs, None) st
    /\ exact_partition (len x) (sort_by_start segs).
Proof.
  intros Hv.
  destruct (CBS_spec x shuffles p seed now h Hv)
    as (segs & h' & r' & Hr & Hc & _).
  exists segs, (State (h ++ h') r'). split; [done|].
  rewrite (chain_sorted _ _ _ Hc). by apply chain_partition.
Qed.

(** C3: on an input of length [n >= 5] every returned segment has length
    at least 5; a shorter input comes back as the single segment
    [[0, n)] (nothing at all when [n = 0]). *)
Theorem CBS_min_segment_length x shuffles p seed now h :
  valid h x ->
  exists segs st,
    CBS x shuffles p seed now h = Done (segs, None) st
    /\ (5 <= len x -> forall seg, seg ∈ segs -> 5 <= seg.2 - seg.1)
    /\ (len x < 5 -> segs = if len x =? 0 then [] else [(0, len x)]).
Proof.
  intros Hv.
  destruct (CBS_spec x shuffles p seed now h Hv)
    as (segs & h' & r' & Hr & Hc & Hl & Hs).
  exists segs, (State (h ++ h') r'). split; [done|]. split.
  - intros Hn seg Hin. specialize (Hl Hn).
    rewrite Forall_forall in Hl. by apply Hl.
  - intros Hn. destruct (Z.eqb_spec (len x) 0) as [Hz|Hz].
    + rewrite Hz in Hc. destruct segs as [|[s e] segs]; [done|].
      destruct Hc as (-> & ? & Hc%chain_le). lia.
    + apply Hs; unfold len in *; lia.
Qed.

(** C6: with [shuffles <= 0] the permutation loop does not run: once the
    whole-span check has passed, [cbsInner] reports a significant split at
    the snapped bounds, and the generator has not been used. *)
Theorem cbsInner_no_shuffles x shuffles p h r maxT maxStart maxEnd err :
  valid h x ->
  shuffles <= 0 ->
  cbsStat (view h x) = (maxT, maxStart, maxEnd, err) ->
  maxEnd - maxStart <> len x ->
  cbsInner x shuffles p (State h r)
  = Done (true, maxT, snap_start maxStart, snap_end (len x) maxEnd, None)
         (State (h ++ [view h x]) r).
Proof.
  intros Hv Hsh Hstat Hspan. unfold cbsInner.
  rewrite (bind_Done _ _ _ _ _ (read_view h r x Hv)).
  pose proof (cbsStat_no_error (view h x)) as Hne.
  rewrite Hstat in *. simpl in Hne. subst err.
  rewrite (proj2 (Z.eqb_neq _ _) Hspan).
  rewrite make_copy by done.
  replace (Z.to_nat shuffles) with 0%nat by lia. done.
Qed.

(** C8: the recursion terminates.  A frame that splits hands on three
    parts, each inside [[start, end)] and strictly shorter than it; so a
    bound of [end - start] nested calls is never reached. *)
Theorem rsegment_terminates x shuffles p start end_ l h r (fuel : nat) :
  valid h x -> 0 <= start -> start <= end_ -> end_ <= len x ->
  (Z.to_nat (end_ - start) < fuel)%nat ->
  (exists l' st, rsegment fuel x start end_ l shuffles p (State h r)
                 = Done (l', None) st)
  /\ (forall xs isChange t s e err st,
        start < end_ ->
        subslice x start end_ (State h r) = Done xs (State h r) ->
        cbsInner xs shuffles p (State h r) = Done (isChange, t, s, e, err) st ->
        negb isChange || (e - s <? 5) || (e - s =? end_ - start) = false ->
        Forall (strictly_inside start end_) (parts start end_ s e)).
Proof.
  intros Hv H0 Hse Hen Hf. split.
  - destruct (rsegment_spec x shuffles p fuel start end_ l h r)
      as (segs & h' & r' & Hr & _); [done..|]. eauto.
  - intros xs b t s e err st Hlt Hsub Hin Hstop.
    rewrite (subslice_Done x start end_ _ H0 Hse Hen) in Hsub.
    injection Hsub as <-.
    destruct (cbsInner_spec _ shuffles p h r
                (subslice_valid h x start end_ Hv H0 Hse Hen))
      as (b' & t' & s' & e' & h1 & r1 & Hin' & Hs0 & Hs & He & _).
    { simpl; lia. }
    rewrite Hin in Hin'. injection Hin' as -> -> -> -> -> ->.
    unfold len in He; simpl in He.
    apply orb_false_iff in Hstop as [Hstop Hwhole].
    apply orb_false_iff in Hstop as [_ Hsmall].
    apply Z.ltb_ge in Hsmall. apply Z.eqb_neq in Hwhole.
    unfold parts, strictly_inside. repeat constructor; simpl; lia.
Qed.

(** C10: a call of [CBS] leaves the caller's data as it was.  The heap
    after the call is the heap before it followed by newly allocated
    arrays, so every array that existed, the input among them, still
    holds the same elements; [cbsInner] itself adds at most its working
    copy, a rearrangement of the sub-sequence in an array of its own. *)
Theorem CBS_input_unchanged x shuffles p seed now h :
  valid h x ->
  (exists res st,
     CBS x shuffles p seed now h = Done res st
     /\ take (length h) (heap st) = h
     /\ view (heap st) x = view h x)
  /\ (forall r res st,
        cbsInner x shuffles p (State h r) = Done res st ->
        heap st = h \/
        exists xt, heap st = h ++ [xt] /\ xt ≡ₚ view h x).
Proof.
  intros Hv. split.
  - destruct (CBS_spec x shuffles p seed now h Hv)
      as (segs & h' & r' & Hr & _).
    exists (segs, None), (State (h ++ h') r'). split; [done|]. simpl. split.
    + by rewrite take_app_length.
    + by apply view_app.
  - intros r res st Hin. destruct (Nat.eq_dec (s_len x) 0%nat) as [Hz|Hnz].
    + left. unfold cbsInner in Hin.
      rewrite (bind_Done _ _ _ _ _ (read_view h r x Hv)) in Hin.
      assert (view h x = []) as Hnil.
      { apply length_zero_iff_nil. by rewrite view_length. }
      rewrite Hnil in Hin. simpl in Hin. unfold len in Hin. rewrite Hz in Hin.
      simpl in Hin. by injection Hin as <- <-.
    + destruct (cbsInner_spec x shuffles p h r Hv)
        as (b & t & s & e & h1 & r1 & Hin' & _ & _ & _ & _ & _ & Hh); [lia|].
      rewrite Hin in Hin'. injection Hin' as -> ->.
      destruct Hh as [->|(xt & -> & Hp)]; simpl.
      * left. by rewrite app_nil_r.
      * right. eauto.
Qed.

End Segmentation.

(** ** The statistic: cumulative sum, extrema and formula *)

Section Formula.
Context {FO : Float64Ops}.











End Formula.

(** ** Results in exact arithmetic *)

Section Exact.

Lemma fgt_Q (a b : Q) : @fgt QOps a b = true <-> (b < a)%Q.
Proof.
  simpl. rewrite negb_true_iff, <- not_true_iff_false, Qle_bool_iff.
  split; [apply Qnot_le_lt|apply Qlt_not_le].
Qed.

Lemma flt_Q (a b : Q) : @flt QOps a b = true <-> (a < b)%Q.
Proof.
  simpl. rewrite negb_true_iff, <- not_true_iff_false, Qle_bool_iff.
  split; [apply Qnot_le_lt|apply Qlt_not_le].
Qed.

Lemma fge_Q (a b : Q) : @fge QOps a b = true <-> (b <= a)%Q.
Proof. simpl. apply Qle_bool_iff. Qed.

Lemma feq_Q (a b : Q) : @feq QOps a b = true <-> (a == b)%Q.
Proof. simpl. apply Qeq_bool_iff. Qed.

Lemma denominator_pos (n i0 i1 : Z) :
  0 <= i0 -> i0 <= i1 -> i1 < n ->
  (0 < @denominator QOps (inject_Z n) i0 i1)%Q.
Proof.
  intros H0 H1 H2. unfold denominator; simpl.
  apply Qmult_lt_0_compat.
  - unfold Qlt, Qplus, inject_Z; simpl. lia.
  - unfold Qlt, Qminus, Qplus, Qopp, inject_Z; simpl. lia.
Qed.


Lemma fold_left_Qsum (s : list Q) (acc : Q) :
  (fold_left Qplus s acc == acc + Qsum s)%Q.
Proof.
  revert acc; induction s as [|v s IH]; intros acc; simpl.
  - ring.
  - rewrite IH. ring.
Qed.

Lemma Sum_Qsum (x : list Q) : (@Sum QOps x == Qsum x)%Q.
Proof. unfold Sum; simpl. rewrite fold_left_Qsum. ring. Qed.

Lemma centered_cumsum_length_Q (x : list Q) :
  length (@centered_cumsum QOps x : list Q) = length x.
Proof. exact (centered_cumsum_length (FO:=QOps) x). Qed.

End Exact.

(** ** Negating the input *)

Section Negation.


Lemma Qsum_opp (x : list Q) : (Qsum (map Qopp x) == - Qsum x)%Q.
Proof. induction x as [|v x IH]; simpl; [reflexivity|]. rewrite IH. ring. Qed.

Lemma Mean_opp (x : list Q) : negated (@Mean QOps (map Qopp x)) (@Mean QOps x).
Proof.
  unfold negated, Mean; simpl. rewrite !Sum_Qsum, Qsum_opp, length_map.
  unfold Qdiv. ring.
Qed.

Lemma CumSum_from_opp (s' s : list Q) : forall acc' acc,
  negated acc' acc -> Forall2 negated s' s ->
  Forall2 negated (@CumSum_from QOps acc' s') (@CumSum_from QOps acc s).
Proof.
  intros acc' acc Ha Hs. revert acc' acc Ha.
  induction Hs as [|v' v s' s Hv Hs IH]; intros acc' acc Ha; simpl; [constructor|].
  assert (negated (acc' + v') (acc + v)) as Hn.
  { unfold negated in *. rewrite Ha, Hv. ring. }
  constructor; [done|]. by apply IH.
Qed.

Lemma CumSum_opp (s' s : list Q) :
  Forall2 negated s' s -> Forall2 negated (@CumSum QOps s') (@CumSum QOps s).
Proof.
  intros Hs. destruct Hs as [|v' v s' s Hv Hs]; simpl; [constructor|].
  constructor; [done|]. by apply CumSum_from_opp.
Qed.

Lemma centered_cumsum_opp (x : list Q) :
  Forall2 negated (@centered_cumsum QOps (map Qopp x)) (@centered_cumsum QOps x).
Proof.
  unfold centered_cumsum. apply CumSum_opp.
  pose proof (Mean_opp x) as Hm. revert Hm.
  generalize (@Mean QOps (map Qopp x)) (@Mean QOps x). intros m' m Hm.
  induction x as [|v x IH]; simpl; constructor; [|done].
  unfold negated in *. rewrite Hm. ring.
Qed.

(** On a negated sequence the search for the maximum takes the steps the
    search for the minimum takes on the original, and conversely. *)
Lemma MaxIdx_from_opp (s' s : list Q) : forall best' best ind i,
  negated best' best -> Forall2 negated s' s ->
  @MaxIdx_from QOps best' ind i s' = @MinIdx_from QOps best ind i s.
Proof.
  intros best' best ind i Hb Hs. revert best' best ind i Hb.
  induction Hs as [|v' v s' s Hv Hs IH]; intros best' best ind i Hb; simpl; [done|].
  assert (negb (Qle_bool v' best') = negb (Qle_bool best v)) as ->.
  { f_equal. apply eq_true_iff_eq. rewrite !Qle_bool_iff.
    unfold negated in *. rewrite Hv, Hb. split; intros H.
    - by apply Qopp_le_compat in H; rewrite !Qopp_involutive in H.
    - by apply Qopp_le_compat. }
  destruct (negb (Qle_bool best v)); by apply IH.
Qed.

Lemma MinIdx_from_opp (s' s : list Q) : forall best' best ind i,
  negated best' best -> Forall2 negated s' s ->
  @MinIdx_from QOps best' ind i s' = @MaxIdx_from QOps best ind i s.
Proof.
  intros best' best ind i Hb Hs. revert best' best ind i Hb.
  induction Hs as [|v' v s' s Hv Hs IH]; intros best' best ind i Hb; simpl; [done|].
  assert (negb (Qle_bool best' v') = negb (Qle_bool v best)) as ->.
  { f_equal. apply eq_true_iff_eq. rewrite !Qle_bool_iff.
    unfold negated in *. rewrite Hv, Hb. split; intros H.
    - by apply Qopp_le_compat in H; rewrite !Qopp_involutive in H.
    - by apply Qopp_le_compat. }
  destruct (negb (Qle_bool v best)); by apply IH.
Qed.

Lemma extrema_opp (y' y : list Q) :
  Forall2 negated y' y -> @extrema QOps y' = @extrema QOps y.
Proof.
  intros Hy. unfold extrema, MaxIdx, MinIdx.
  destruct Hy as [|v' v s' s Hv Hs]; [done|].
  rewrite (MaxIdx_from_opp s' s v' v 0 1 Hv Hs).
  rewrite (MinIdx_from_opp s' s v' v 0 1 Hv Hs).
  destruct (Z.ltb_spec (@MaxIdx_from QOps v 0 1 s) (@MinIdx_from QOps v 0 1 s)),
           (Z.ltb_spec (@MinIdx_from QOps v 0 1 s) (@MaxIdx_from QOps v 0 1 s));
    f_equal; lia.
Qed.

Lemma nth_opp (y' y : list Q) k :
  Forall2 negated y' y -> negated (nth k y' 0%Q) (nth k y 0%Q).
Proof.
  intros Hy. revert k.
  induction Hy as [|v' v s' s Hv Hs IH]; intros [|k]; simpl;
    [unfold negated; reflexivity..| exact Hv | apply IH].
Qed.

Lemma ratio_opp (a b n d : Q) :
  ((- a - - b) * (- a - - b) * n / d == (a - b) * (a - b) * n / d)%Q.
Proof. unfold Qdiv. ring. Qed.

(** C9: negating every value leaves the candidate split where it was
    and the statistic at the same value; ties are broken at the same
    indices, as maximum and minimum change places. *)
Theorem cbsStat_negation (x : list Q) :
  exists t t' s e,
    @cbsStat QOps x = (t, s, e, None)
    /\ @cbsStat QOps (map Qopp x) = (t', s, e, None)
    /\ (t' == t)%Q.
Proof.
  destruct x as [|v x'].
  { exists 0%Q, 0%Q, 0, 0. simpl. repeat split; reflexivity. }
  set (x := v :: x').
  pose proof (centered_cumsum_opp x) as Hy.
  pose proof (extrema_opp _ _ Hy) as He.
  unfold cbsStat. cbn [map]. fold (map Qopp x). fold x.
  change (Qopp v :: map Qopp x') with (map Qopp x) in *.
  rewrite He, length_map.
  destruct (@extrema QOps (@centered_cumsum QOps x)) as [i0 i1].
  pose proof (nth_opp _ _ (Z.to_nat i0) Hy) as H0.
  pose proof (nth_opp _ _ (Z.to_nat i1) Hy) as H1.
  destruct (feq _ _).
  - exists 0%Q, 0%Q, i0, (i1 + 1). repeat split; reflexivity.
  - eexists _, _, i0, (i1 + 1). split; [reflexivity|]. split; [reflexivity|].
    unfold at_index. cbn [fdiv fmul fpow2 fsub fzero QOps].
    unfold negated in *. rewrite H0, H1. apply ratio_opp.
Qed.

End Negation.

(** ** Constant input *)

Section ConstantInput.
Context {FO : Float64Ops} {RS : RandSource}.
Implicit Types (h : list (list float64)) (r : Rand) (x : slice).
















End ConstantInput.

(** ** The guard on the division *)

(** C7: the division in [cbsStat] is guarded: a zero denominator makes
    the function return statistic 0 with the split [(i0, i1 + 1)], and
    the ratio is computed only otherwise.  In exact arithmetic both
    factors of the denominator are at least 1, so it is zero for no
    non-empty input at all, in particular for none longer than 1. *)
Theorem cbsStat_division_guarded :
  (forall (FO : Float64Ops) (x : list float64) (i0 i1 : Z),
     x <> [] ->
     extrema (centered_cumsum x) = (i0, i1) ->
     let n := of_int (Z.of_nat (length x)) in
     let y := centered_cumsum x in
     cbsStat x =
     (if feq (denominator n i0 i1) fzero then fzero
      else fdiv (fmul (fpow2 (fsub (at_index y i1) (at_index y i0))) n)
                (denominator n i0 i1),
      i0, i1 + 1, None))
  /\ (forall (x : list Q) (i0 i1 : Z),
        x <> [] ->
        @extrema QOps (@centered_cumsum QOps x) = (i0, i1) ->
        let den := @denominator QOps (inject_Z (Z.of_nat (length x))) i0 i1 in
        (0 < den)%Q /\ (den == 0 -> length x = 1%nat)%Q).
Proof.
  split.
  - intros FO x i0 i1 Hx He n y. unfold cbsStat.
    destruct x as [|v x']; [done|]. rewrite He. fold n. fold y.
    by destruct (feq _ _).
  - intros x i0 i1 Hx He den.
    assert (0 < den)%Q as Hpos.
    { apply extrema_range in He as (? & ? & Hlt).
      - rewrite centered_cumsum_length_Q in Hlt. by apply denominator_pos.
      - intros Hnil. apply (f_equal length) in Hnil.
        rewrite centered_cumsum_length_Q in Hnil. by destruct x. }
    split; [done|]. intros Hz. rewrite Hz in Hpos.
    by apply Qlt_irrefl in Hpos.
Qed.

(** ** The seed *)

Section Seed.
Context {FO : Float64Ops} {RS : RandSource}.

(** With seed 0 the generator is [NewSource 0]: the clock plays no part. *)
Lemma CBS_seed_zero x shuffles p now now' h :
  CBS x shuffles p 0 now h = CBS x shuffles p 0 now' h.
Proof. reflexivity. Qed.

(** With any other seed the generator is seeded from the clock alone:
    the seed the caller passed is not used. *)
Lemma CBS_seed_ignored x shuffles p seed seed' now h :
  seed <> 0 -> seed' <> 0 ->
  CBS x shuffles p seed now h = CBS x shuffles p seed' now h.
Proof.
  intros Hs Hs'. unfold CBS.
  by rewrite (proj2 (Z.eqb_neq _ _) Hs), (proj2 (Z.eqb_neq _ _) Hs').
Qed.

End Seed.

(** C1: reproducibility for a fixed seed fails in the code.  Two calls
    with the same input, one shuffle, [p = 0.05] and seed 42, made at
    clock readings 1 and 2, return different segment lists (here with the
    generator [LCG]). *)
Theorem CBS_nonzero_seed_follows_clock :
  result (CBS (whole noisy) 1 (5 # 100) 42 1 [noisy])
    = Some ([(0, 12)], None)
  /\ result (CBS (whole noisy) 1 (5 # 100) 42 2 [noisy])
    = Some ([(0, 5); (5, 12)], None).
Proof. split; vm_compute; reflexivity. Qed.

(** ** The theorems at concrete inputs *)

Lemma CBS_partition_witness :
  exists segs st,
    CBS (FO:=QOps) (RS:=LCG) (whole steps) 1000 (5 # 100) 0 0 [steps]
    = Done (segs, None) st
    /\ exact_partition 14 (sort_by_start segs).
Proof.
  apply (CBS_partition (FO:=QOps) (RS:=LCG) (whole steps) 1000 (5 # 100)
           0 0 [steps]).
  split; simpl; lia.
Defined.

Lemma CBS_min_segment_length_witness :
  exists segs st,
    CBS (FO:=QOps) (RS:=LCG) (whole steps) 1000 (5 # 100) 0 0 [steps]
    = Done (segs, None) st
    /\ (5 <= 14 -> forall seg, seg ∈ segs -> 5 <= seg.2 - seg.1)
    /\ (14 < 5 -> segs = [(0, 14)]).
Proof.
  apply (CBS_min_segment_length (FO:=QOps) (RS:=LCG) (whole steps) 1000
           (5 # 100) 0 0 [steps]).
  split; simpl; lia.
Defined.

Lemma cbsInner_no_shuffles_witness :
  cbsInner (FO:=QOps) (RS:=LCG) (whole steps) (-3) (5 # 100) (State [steps] 7)
  = Done (true, (@cbsStat QOps steps).1.1.1, 8, 14, None)
         (State [steps; steps] 7).
Proof.
  apply (cbsInner_no_shuffles (FO:=QOps) (RS:=LCG) (whole steps) (-3)
           (5 # 100) [steps] 7 (@cbsStat QOps steps).1.1.1 8 14 None).
  - split; simpl; lia.
  - lia.
  - vm_compute. reflexivity.
  - vm_compute. discriminate.
Defined.

Lemma rsegment_terminates_witness :
  exists l' st,
    rsegment (FO:=QOps) (RS:=LCG) 15 (whole steps) 0 14 [] 1000 (5 # 100)
      (State [steps] 0) = Done (l', None) st.
Proof.
  apply (rsegment_terminates (FO:=QOps) (RS:=LCG) (whole steps) 1000
           (5 # 100) 0 14 [] [steps] 0 15).
  - split; simpl; lia.
  - lia.
  - lia.
  - vm_compute. discriminate.
  - vm_compute. lia.
Defined.

Lemma CBS_input_unchanged_witness :
  exists res st,
    CBS (FO:=QOps) (RS:=LCG) (whole steps) 1000 (5 # 100) 0 0 [steps]
    = Done res st
    /\ take 1 (heap st) = [steps]
    /\ view (heap st) (whole steps) = steps.
Proof.
  apply (CBS_input_unchanged (FO:=QOps) (RS:=LCG) (whole steps) 1000
           (5 # 100) 0 0 [steps]).
  split; simpl; lia.
Defined.


(** On [rounding_tie] the split is [[2, 4)]: in binary64 the cumulative
    sum is smaller at index 3 than at index 0. *)
Example cbsStat_rounding_tie :
  (@cbsStat F64Ops rounding_tie).1.1.2 = 2
  /\ (@cbsStat F64Ops rounding_tie).1.2 = 4
  /\ @flt F64Ops (nth 3 (@centered_cumsum F64Ops rounding_tie) (@fzero F64Ops))
                 (nth 0 (@centered_cumsum F64Ops rounding_tie) (@fzero F64Ops))
     = true.
Proof. repeat split; vm_compute; reflexivity. Qed.



(** What the code does on the three constant inputs.  On [tenths] the
    running sums fall, the statistic is not zero and the candidate is the
    whole input; on [huge] the centered value is an infinity, the
    statistic is NaN and the detector reports a change, at a split of one
    element that [rsegment] drops.  One segment comes back each time. *)
Example constant_inputs_binary64 :
  @falling F64Ops (@centered_cumsum F64Ops tenths) = true
  /\ (exists t, @cbsStat F64Ops tenths = (t, 0, 3, None)
                /\ @feq F64Ops t (@fzero F64Ops) = false)
  /\ result64 (CBS (FO:=F64Ops) (RS:=LCG) (whole64 tenths) 10 five_percent
                 42 1 [tenths])
     = Some ([(0, 3)], None)
  /\ @stationary F64Ops
       (@fsub F64Ops 0x1.1ccf385ebc8ap+1023%float (@Mean F64Ops huge))
  /\ (exists t, result64 (cbsInner (FO:=F64Ops) (RS:=LCG) (whole64 huge) 10
                            five_percent
                            (@State F64Ops LCG [huge] 7))
                = Some (true, t, 0, 1, None)
                /\ @feq F64Ops t t = false)
  /\ result64 (CBS (FO:=F64Ops) (RS:=LCG) (whole64 huge) 10 five_percent
                 42 1 [huge])
     = Some ([(0, 6)], None).
Proof.
  split; [vm_compute; reflexivity|].
  split; [eexists; split; vm_compute; reflexivity|].
  split; [vm_compute; reflexivity|].
  split; [repeat split; vm_compute; reflexivity|].
  split; [eexists; split; vm_compute; reflexivity|].
  vm_compute; reflexivity.
Qed.

Lemma cbsStat_division_guarded_witness :
  (@cbsStat QOps steps).1.2 = 14
  /\ (0 < @denominator QOps (inject_Z 14) 8 13)%Q.
Proof.
  split.
  - rewrite (proj1 cbsStat_division_guarded QOps steps 8 13);
      [reflexivity | discriminate | vm_compute; reflexivity].
  - apply (proj2 cbsStat_division_guarded steps 8 13);
      [discriminate | vm_compute; reflexivity].
Defined.

(** * Further properties of the code *)

(** ** The detector and the segmenter, for every arithmetic *)

Section Further.
Context {FO : Float64Ops} {RS : RandSource}.
Implicit Types (h : list (list float64)) (r : Rand) (x : slice).

(** X1: on a non-empty input [cbsStat] reports no error, and the split it
    returns is a non-empty interval inside the input:
    [0 <= start < end <= len(x)]. *)
Theorem cbsStat_split_in_range (x : list float64) :
  x <> [] ->
  exists t s e,
    cbsStat x = (t, s, e, None)
    /\ 0 <= s /\ s < e /\ e <= Z.of_nat (length x).
Proof.
  intros Hx. destruct (cbsStat x) as [[[t s] e] err] eqn:Hstat.
  destruct (cbsStat_bounds x t s e err Hx Hstat) as (? & ? & ? & ->).
  by exists t, s, e.
Qed.

(** X2: what [cbsInner] returns besides the verdict is fixed by the data.
    If the raw split of [cbsStat] spans the whole sub-sequence, the answer
    is "no change" with the raw split, and neither the heap nor the
    generator is touched.  Otherwise the statistic is returned with the
    snapped split, and the heap has grown by exactly the working copy, a
    rearrangement of the sub-sequence. *)
Theorem cbsInner_result_shape x shuffles p h r maxT maxStart maxEnd err :
  valid h x ->
  cbsStat (view h x) = (maxT, maxStart, maxEnd, err) ->
  (maxEnd - maxStart = len x ->
   cbsInner x shuffles p (State h r)
   = Done (false, maxT, maxStart, maxEnd, None) (State h r))
  /\ (maxEnd - maxStart <> len x ->
      exists isChange xt r',
        cbsInner x shuffles p (State h r)
        = Done (isChange, maxT, snap_start maxStart,
                snap_end (len x) maxEnd, None) (State (h ++ [xt]) r')
        /\ xt ≡ₚ view h x).
Proof.
  intros Hv Hstat.
  pose proof (cbsStat_no_error (view h x)) as Hne.
  rewrite Hstat in Hne. simpl in Hne. subst err.
  pose proof (view_length _ _ Hv) as Hlen.
  split; intros Hspan; unfold cbsInner;
    rewrite (bind_Done _ _ _ _ _ (read_view h r x Hv)), Hstat.
  - by rewrite (proj2 (Z.eqb_eq _ _) Hspan).
  - rewrite (proj2 (Z.eqb_neq _ _) Hspan). rewrite make_copy by done.
    pose proof (permutations_fresh h maxT (snap_start maxStart)
      (snap_end (len x) maxEnd) (fmul (of_int shuffles) p)
      (Z.to_nat shuffles) (view h x) r 0) as (b & a' & r' & Hp & Hperm).
    rewrite Hlen in Hp. exists b, a', r'. split; [exact Hp|done].
Qed.

(** X3: on a non-empty sub-sequence the split [cbsInner] returns is
    non-empty and inside the sub-sequence, and it leaves no short end:
    its start is 0 or at least 5, and its end is [len(x)] or at least 5
    before it.  No error is reported and nothing panics. *)
Theorem cbsInner_snapped_bounds x shuffles p h r :
  valid h x -> 0 < len x ->
  exists isChange t s e st,
    cbsInner x shuffles p (State h r) = Done (isChange, t, s, e, None) st
    /\ 0 <= s /\ s < e /\ e <= len x
    /\ (s = 0 \/ 5 <= s) /\ (e = len x \/ 5 <= len x - e).
Proof.
  intros Hv Hn.
  destruct (cbsInner_spec x shuffles p h r Hv)
    as (b & t & s & e & h' & r' & Hin & ? & ? & ? & ? & ? & _).
  { unfold len in Hn. lia. }
  exists b, t, s, e, (State (h ++ h') r'). by repeat split.
Qed.

(** X4: [rsegment] on a sub-range [[start, end)] of the input only
    appends to [*l]: what was in the list stays in front, and what is
    added is a run of non-empty segments that starts at [start], ends at
    [end] and has each segment begin where the one before it ends. *)
Theorem rsegment_appends_partition x shuffles p start end_ l h r (fuel : nat) :
  valid h x -> 0 <= start -> start <= end_ -> end_ <= len x ->
  (Z.to_nat (end_ - start) < fuel)%nat ->
  exists segs st,
    rsegment fuel x start end_ l shuffles p (State h r)
    = Done (l ++ segs, None) st
    /\ chain start end_ segs.
Proof.
  intros Hv H0 Hse Hen Hf.
  destruct (rsegment_spec x shuffles p fuel start end_ l h r)
    as (segs & h' & r' & Hr & Hc & _); [done..|].
  by exists segs, (State (h ++ h') r').
Qed.

(** X5: the list [CBS] returns is already in order: the first segment
    starts at 0, each segment is non-empty and begins where the one
    before it ends, the last ends at [len(x)].  Sorting it by start
    index changes nothing. *)
Theorem CBS_segments_in_order x shuffles p seed now h :
  valid h x ->
  exists segs st,
    CBS x shuffles p seed now h = Done (segs, None) st
    /\ chain 0 (len x) segs
    /\ sort_by_start segs = segs.
Proof.
  intros Hv.
  destruct (CBS_spec x shuffles p seed now h Hv)
    as (segs & h' & r' & Hr & Hc & _).
  exists segs, (State (h ++ h') r'). split; [done|]. split; [done|].
  by eapply chain_sorted.
Qed.

Lemma chain_count a b segs :
  chain a b segs -> Forall long_enough segs ->
  5 * Z.of_nat (length segs) <= b - a.
Proof.
  revert a; induction segs as [|[s e] segs IH]; intros a Hc Hl; simpl in *.
  - lia.
  - destruct Hc as (-> & ? & Hc). apply Forall_cons in Hl as [Hse Hl].
    unfold long_enough in Hse. simpl in Hse.
    specialize (IH _ Hc Hl). lia.
Qed.

(** X6: an input of length [n >= 5] is cut into at most [n / 5]
    segments. *)
Theorem CBS_segment_count x shuffles p seed now h :
  valid h x -> 5 <= len x ->
  exists segs st,
    CBS x shuffles p seed now h = Done (segs, None) st
    /\ 5 * Z.of_nat (length segs) <= len x.
Proof.
  intros Hv Hn.
  destruct (CBS_spec x shuffles p seed now h Hv)
    as (segs & h' & r' & Hr & Hc & Hl & _).
  exists segs, (State (h ++ h') r'). split; [done|].
  pose proof (chain_count _ _ _ Hc (Hl Hn)). lia.
Qed.

(** X7: an input shorter than 10 is never split: a split needs 5
    elements of its own and, on one side at least, 5 more.  The result is
    the single segment [[0, n)]. *)
Theorem CBS_short_input_unsplit x shuffles p seed now h :
  valid h x -> 0 < len x -> len x < 10 ->
  exists st,
    CBS x shuffles p seed now h = Done ([(0, len x)], None) st.
Proof.
  intros Hv Hn Hshort. unfold CBS. cbn [rsegment].
  destruct (Z.geb_spec 0 (len x)) as [?|_]; [lia|].
  rewrite (bind_Done _ _ _ _ _
             (subslice_Done x 0 (len x) _ (Z.le_refl 0)
                ltac:(lia) ltac:(lia))).
  set (xs := Slice _ _ _).
  assert (Hxs : valid h xs) by (apply subslice_valid; [done|lia..]).
  assert (Hlen : len xs = len x) by (unfold xs, len; cbn [s_len]; lia).
  destruct (cbsInner_spec xs shuffles p h
              (if seed =? 0 then NewSource seed else NewSource now) Hxs)
    as (b & t & s & e & h1 & r1 & Hin & Hs0 & Hs & He & Hss & Hes & _).
  { unfold xs; cbn [s_len]. unfold len in *. lia. }
  rewrite (bind_Done _ _ _ _ _ Hin). rewrite Hlen in *.
  assert (negb b || (e - s <? 5) || (e - s =? len x - 0) = true) as ->.
  { destruct (Z.ltb_spec (e - s) 5); [by rewrite orb_true_r|].
    destruct (Z.eqb_spec (e - s) (len x - 0)); [by rewrite orb_true_r|]. lia. }
  simpl. eauto.
Qed.

(** X8: on an empty input [CBS] returns the empty list and no error,
    without reading the input, allocating, or drawing a random number. *)
Theorem CBS_empty_input x shuffles p seed now h :
  len x = 0 ->
  CBS x shuffles p seed now h
  = Done ([], None)
         (State h (if seed =? 0 then NewSource seed else NewSource now)).
Proof.
  intros Hn. unfold CBS. cbn [rsegment]. rewrite Hn. done.
Qed.

End Further.

(** ** Extreme significance levels *)

Section ExactFurther.
Context {RS : RandSource}.

(** The count of permuted statistics that reach the observed one never
    passes [alpha] when [alpha] is at least the number of rounds. *)
Lemma permutations_all_rounds h maxT maxStart maxEnd (alpha : Q) (k : nat) :
  forall (a : list (@float64 QOps)) r threshCount,
    (inject_Z (threshCount + Z.of_nat k) <= alpha)%Q ->
    exists a' r',
      permutations (FO:=QOps) k (fresh_slice h (length a)) maxT maxStart
        maxEnd alpha threshCount (State (h ++ [a]) r)
      = Done (true, maxT, maxStart, maxEnd, None) (State (h ++ [a']) r')
      /\ a' ≡ₚ a.
Proof.
  induction k as [|k IH]; intros a r threshCount Hc.
  - exists a, r. done.
  - cbn [permutations]. unfold len; cbn [s_len fresh_slice].
    destruct (Shuffle_fresh (FO:=QOps) h a r) as (a1 & r1 & Hs & Hp & Hl).
    rewrite (bind_Done _ _ _ _ _ Hs). rewrite <- Hl.
    rewrite (bind_Done _ _ _ _ _ (read_fresh (FO:=QOps) h a1 r1)).
    pose proof (cbsStat_no_error (FO:=QOps) a1) as Hne.
    destruct (@cbsStat QOps a1) as [[[threshold ?] ?] err];
      simpl in Hne; subst err.
    set (tc := if @fge QOps threshold maxT then threshCount + 1
               else threshCount).
    assert (Htc : tc <= threshCount + 1) by (unfold tc; destruct (fge _ _); lia).
    assert (@fgt QOps (@of_int QOps tc) alpha = false) as ->.
    { apply not_true_iff_false. rewrite fgt_Q. apply Qle_not_lt.
      eapply Qle_trans; [|exact Hc]. cbn [of_int QOps].
      rewrite <- Zle_Qle. lia. }
    destruct (IH a1 r1 tc) as (a2 & r2 & Hr & Hp2).
    { eapply Qle_trans; [|exact Hc]. rewrite <- Zle_Qle. lia. }
    exists a2, r2. split; [done|by etrans].
Qed.

(** X11: with a significance level [p >= 1] the permutation test cannot
    fail in exact arithmetic: every candidate that does not span the
    whole sub-sequence is declared significant, whatever the shuffles
    produce. *)
Theorem cbsInner_p_at_least_one x shuffles (p : Q) h r maxT maxStart maxEnd err :
  valid (FO:=QOps) h x ->
  (1 <= p)%Q ->
  @cbsStat QOps (view (FO:=QOps) h x) = (maxT, maxStart, maxEnd, err) ->
  maxEnd - maxStart <> len x ->
  exists st,
    cbsInner (FO:=QOps) x shuffles p (State h r)
    = Done (true, maxT, snap_start maxStart, snap_end (len x) maxEnd, None) st.
Proof.
  intros Hv Hp Hstat Hspan. unfold cbsInner.
  rewrite (bind_Done _ _ _ _ _ (read_view h r x Hv)).
  pose proof (cbsStat_no_error (FO:=QOps) (view h x)) as Hne.
  rewrite Hstat in *. simpl in Hne. subst err.
  rewrite (proj2 (Z.eqb_neq _ _) Hspan). rewrite make_copy by done.
  pose proof (view_length (FO:=QOps) _ _ Hv) as Hlen.
  destruct (Z.le_gt_cases shuffles 0) as [Hsh|Hsh].
  - replace (Z.to_nat shuffles) with 0%nat by lia. simpl. eauto.
  - destruct (permutations_all_rounds h maxT (snap_start maxStart)
                (snap_end (len x) maxEnd)
                (@fmul QOps (@of_int QOps shuffles) p)
                (Z.to_nat shuffles) (view h x) r 0)
      as (a' & r' & Hr & _).
    + rewrite Z2Nat.id by lia. cbn [fmul of_int QOps]. simpl (0 + shuffles).
      eapply Qle_trans; [|apply Qmult_le_l; [|exact Hp]].
      * rewrite Qmult_1_r. apply Qle_refl.
      * unfold Qlt, inject_Z; simpl. lia.
    + rewrite Hlen in Hr. eauto.
Qed.

(** X12: with a negative significance level and at least one shuffle the
    test fails in its first round, in exact arithmetic: the count, zero
    or one, already exceeds the negative [alpha]. *)
Theorem cbsInner_p_negative x shuffles (p : Q) h r maxT maxStart maxEnd err :
  valid (FO:=QOps) h x ->
  1 <= shuffles -> (p < 0)%Q ->
  @cbsStat QOps (view (FO:=QOps) h x) = (maxT, maxStart, maxEnd, err) ->
  maxEnd - maxStart <> len x ->
  exists st,
    cbsInner (FO:=QOps) x shuffles p (State h r)
    = Done (false, maxT, snap_start maxStart, snap_end (len x) maxEnd, None) st.
Proof.
  intros Hv Hsh Hp Hstat Hspan. unfold cbsInner.
  rewrite (bind_Done _ _ _ _ _ (read_view h r x Hv)).
  pose proof (cbsStat_no_error (FO:=QOps) (view h x)) as Hne.
  rewrite Hstat in *. simpl in Hne. subst err.
  rewrite (proj2 (Z.eqb_neq _ _) Hspan). rewrite make_copy by done.
  pose proof (view_length (FO:=QOps) _ _ Hv) as Hlen.
  destruct (Z.to_nat shuffles) as [|k] eqn:Hk; [lia|].
  cbn [permutations]. unfold len at 3; cbn [s_len fresh_slice].
  destruct (Shuffle_fresh (FO:=QOps) h (view h x) r) as (a1 & r1 & Hs & _ & Hl).
  rewrite Hlen in Hs.
  rewrite (bind_Done _ _ _ _ _ Hs).
  pose proof (read_fresh (FO:=QOps) h a1 r1) as Hr.
  rewrite Hl, Hlen in Hr.
  rewrite (bind_Done _ _ _ _ _ Hr).
  pose proof (cbsStat_no_error (FO:=QOps) a1) as Hne.
  destruct (@cbsStat QOps a1) as [[[threshold ?] ?] err];
    simpl in Hne; subst err.
  set (tc := if @fge QOps threshold maxT then 0 + 1 else 0).
  assert (Htc : 0 <= tc) by (unfold tc; destruct (fge _ _); lia).
  assert (@fgt QOps (@of_int QOps tc) (@fmul QOps (@of_int QOps shuffles) p)
          = true) as ->.
  { apply fgt_Q. cbn [fmul of_int QOps].
    apply Qlt_le_trans with 0%Q.
    - rewrite <- (Qmult_0_r (inject_Z shuffles)).
      apply Qmult_lt_l; [|done]. unfold Qlt, inject_Z; simpl. lia.
    - unfold Qle, inject_Z; simpl. lia. }
  eauto.
Qed.

End ExactFurther.

(** ** Monotonicity in the significance level *)

Section Monotone.
Context {RS : RandSource}.

(** A run of the permutation loop that ends in "significant" ends the
    same way, in the same state, under any larger [alpha]. *)
Lemma permutations_monotone h maxT maxStart maxEnd (alpha alpha' : Q) (k : nat) :
  (alpha <= alpha')%Q ->
  forall (a : list (@float64 QOps)) r threshCount t s e err st,
    permutations (FO:=QOps) k (fresh_slice h (length a)) maxT maxStart
      maxEnd alpha threshCount (State (h ++ [a]) r)
    = Done (true, t, s, e, err) st ->
    permutations (FO:=QOps) k (fresh_slice h (length a)) maxT maxStart
      maxEnd alpha' threshCount (State (h ++ [a]) r)
    = Done (true, t, s, e, err) st.
Proof.
  intros Ha. induction k as [|k IH]; intros a r threshCount t s e err st; [done|].
  cbn [permutations]. unfold len; cbn [s_len fresh_slice].
  destruct (Shuffle_fresh (FO:=QOps) h a r) as (a1 & r1 & Hs & Hp & Hl).
  rewrite !(bind_Done _ _ _ _ _ Hs). rewrite <- Hl.
  rewrite !(bind_Done _ _ _ _ _ (read_fresh (FO:=QOps) h a1 r1)).
  pose proof (cbsStat_no_error (FO:=QOps) a1) as Hne.
  destruct (@cbsStat QOps a1) as [[[threshold ?] ?] err1];
    simpl in Hne; subst err1.
  set (tc := if @fge QOps threshold maxT then threshCount + 1
             else threshCount).
  destruct (@fgt QOps (@of_int QOps tc) alpha) eqn:Hgt; [done|].
  assert (@fgt QOps (@of_int QOps tc) alpha' = false) as ->.
  { apply not_true_iff_false in Hgt. rewrite fgt_Q in Hgt.
    apply not_true_iff_false. rewrite fgt_Q.
    apply Qle_not_lt. eapply Qle_trans; [|exact Ha]. by apply Qnot_lt_le. }
  apply IH.
Qed.

(** X16: raising the significance level never turns a significant split
    into an insignificant one: in exact arithmetic, from the same
    generator state, a call that declares a change at level [p] declares
    the same change, and ends in the same state, at any level [p' >= p]. *)
Theorem cbsInner_monotone_in_p x shuffles (p p' : Q) h r t s e err st :
  valid (FO:=QOps) h x ->
  (p <= p')%Q ->
  cbsInner (FO:=QOps) x shuffles p (State h r) = Done (true, t, s, e, err) st ->
  cbsInner (FO:=QOps) x shuffles p' (State h r) = Done (true, t, s, e, err) st.
Proof.
  intros Hv Hp. unfold cbsInner.
  rewrite !(bind_Done _ _ _ _ _ (read_view h r x Hv)).
  pose proof (cbsStat_no_error (FO:=QOps) (view h x)) as Hne.
  destruct (@cbsStat QOps (view (FO:=QOps) h x)) as [[[maxT maxStart] maxEnd] err1].
  simpl in Hne. subst err1.
  destruct (maxEnd - maxStart =? len x); [done|].
  rewrite !make_copy by done.
  pose proof (view_length (FO:=QOps) _ _ Hv) as Hlen. rewrite <- Hlen.
  destruct (Z.le_gt_cases shuffles 0) as [Hsh|Hsh].
  - by replace (Z.to_nat shuffles) with 0%nat by lia.
  - apply permutations_monotone. cbn [fmul of_int QOps].
    apply Qmult_le_l; [|done]. unfold Qlt, inject_Z; simpl. lia.
Qed.

End Monotone.

(** ** The further properties at concrete inputs *)

Lemma Done_result_end_state {A} (o : outcome (FO:=QOps) (RS:=LCG) A) (v : A) :
  result o = Some v -> o = Done v (end_state o).
Proof. destruct o; simpl; congruence. Qed.

Lemma cbsStat_split_in_range_witness :
  exists t s e,
    @cbsStat QOps steps = (t, s, e, None)
    /\ 0 <= s /\ s < e /\ e <= 14.
Proof.
  apply (cbsStat_split_in_range (FO:=QOps) steps). discriminate.
Defined.

Lemma cbsInner_result_shape_witness :
  exists isChange xt r',
    cbsInner (FO:=QOps) (RS:=LCG) (whole steps) 3 (5 # 100) (State [steps] 7)
    = Done (isChange, (@cbsStat QOps steps).1.1.1, 8, 14, None)
           (State ([steps] ++ [xt]) r')
    /\ xt ≡ₚ steps.
Proof.
  apply (cbsInner_result_shape (FO:=QOps) (RS:=LCG) (whole steps) 3
           (5 # 100) [steps] 7 (@cbsStat QOps steps).1.1.1 8 14 None).
  - split; simpl; lia.
  - vm_compute. reflexivity.
  - vm_compute. discriminate.
Defined.

Lemma cbsInner_snapped_bounds_witness :
  exists isChange t s e st,
    cbsInner (FO:=QOps) (RS:=LCG) (whole steps) 3 (5 # 100) (State [steps] 7)
    = Done (isChange, t, s, e, None) st
    /\ 0 <= s /\ s < e /\ e <= 14
    /\ (s = 0 \/ 5 <= s) /\ (e = 14 \/ 5 <= 14 - e).
Proof.
  apply (cbsInner_snapped_bounds (FO:=QOps) (RS:=LCG) (whole steps) 3
           (5 # 100) [steps] 7).
  - split; simpl; lia.
  - vm_compute. reflexivity.
Defined.

Lemma rsegment_appends_partition_witness :
  exists segs st,
    rsegment (FO:=QOps) (RS:=LCG) 15 (whole steps) 0 14 [(20, 30)] 3
      (5 # 100) (State [steps] 7)
    = Done ([(20, 30)] ++ segs, None) st
    /\ chain 0 14 segs.
Proof.
  apply (rsegment_appends_partition (FO:=QOps) (RS:=LCG) (whole steps) 3
           (5 # 100) 0 14 [(20, 30)] [steps] 7 15).
  - split; simpl; lia.
  - lia.
  - lia.
  - vm_compute. discriminate.
  - vm_compute. lia.
Defined.

Lemma CBS_segments_in_order_witness :
  exists segs st,
    CBS (FO:=QOps) (RS:=LCG) (whole steps) 3 (5 # 100) 0 0 [steps]
    = Done (segs, None) st
    /\ chain 0 14 segs
    /\ sort_by_start segs = segs.
Proof.
  apply (CBS_segments_in_order (FO:=QOps) (RS:=LCG) (whole steps) 3
           (5 # 100) 0 0 [steps]).
  split; simpl; lia.
Defined.

Lemma CBS_segment_count_witness :
  exists segs st,
    CBS (FO:=QOps) (RS:=LCG) (whole steps) 3 (5 # 100) 0 0 [steps]
    = Done (segs, None) st
    /\ 5 * Z.of_nat (length segs) <= 14.
Proof.
  apply (CBS_segment_count (FO:=QOps) (RS:=LCG) (whole steps) 3
           (5 # 100) 0 0 [steps]).
  - split; simpl; lia.
  - vm_compute. discriminate.
Defined.

Lemma CBS_short_input_unsplit_witness :
  exists st,
    CBS (FO:=QOps) (RS:=LCG) (whole [1 # 1; 9 # 1; 2 # 1]%Q) 3 (5 # 100) 0 0
      [[1 # 1; 9 # 1; 2 # 1]%Q]
    = Done ([(0, 3)], None) st.
Proof.
  apply (CBS_short_input_unsplit (FO:=QOps) (RS:=LCG)
           (whole [1 # 1; 9 # 1; 2 # 1]%Q) 3 (5 # 100) 0 0
           [[1 # 1; 9 # 1; 2 # 1]%Q]).
  - split; simpl; lia.
  - vm_compute. reflexivity.
  - vm_compute. reflexivity.
Defined.

Lemma CBS_empty_input_witness :
  CBS (FO:=QOps) (RS:=LCG) (whole []) 1000 (5 # 100) 42 99 []
  = Done ([], None) (State [] 99).
Proof.
  apply (CBS_empty_input (FO:=QOps) (RS:=LCG) (whole []) 1000 (5 # 100)
           42 99 []).
  reflexivity.
Defined.

Lemma cbsInner_p_at_least_one_witness :
  exists st,
    cbsInner (FO:=QOps) (RS:=LCG) (whole noisy) 3 (2 # 1) (State [noisy] 1)
    = Done (true, (@cbsStat QOps noisy).1.1.1, 5, 12, None) st.
Proof.
  apply (cbsInner_p_at_least_one (RS:=LCG) (whole noisy) 3 (2 # 1) [noisy] 1
           (@cbsStat QOps noisy).1.1.1 5 12 None).
  - split; simpl; lia.
  - discriminate.
  - vm_compute. reflexivity.
  - vm_compute. discriminate.
Defined.

Lemma cbsInner_p_negative_witness :
  exists st,
    cbsInner (FO:=QOps) (RS:=LCG) (whole steps) 3 (-1 # 2) (State [steps] 7)
    = Done (false, (@cbsStat QOps steps).1.1.1, 8, 14, None) st.
Proof.
  apply (cbsInner_p_negative (RS:=LCG) (whole steps) 3 (-1 # 2) [steps] 7
           (@cbsStat QOps steps).1.1.1 8 14 None).
  - split; simpl; lia.
  - lia.
  - reflexivity.
  - vm_compute. reflexivity.
  - vm_compute. discriminate.
Defined.

Lemma cbsInner_monotone_in_p_witness :
  exists st,
    cbsInner (FO:=QOps) (RS:=LCG) (whole steps) 3 (9 # 10) (State [steps] 7)
    = Done (true, (@cbsStat QOps steps).1.1.1, 8, 14, None) st.
Proof.
  exists (end_state (cbsInner (FO:=QOps) (RS:=LCG) (whole steps) 3 (5 # 100)
                       (State (FO:=QOps) (RS:=LCG) [steps] 7))).
  apply (cbsInner_monotone_in_p (RS:=LCG) (whole steps) 3 (5 # 100) (9 # 10)
           [steps] 7).
  - split; simpl; lia.
  - discriminate.
  - apply Done_result_end_state. vm_compute. reflexivity.
Defined.
